(** * Romanian text preprocessor (src/romanian_preprocessor.py)

    A shallow embedding of the preprocessing functions of
    [romanian_preprocessor.py] and the properties proved about them.

    A Python [str] is a sequence of Unicode code points; it is modelled as a
    list of code points ([N]).  The two module-level dictionaries are finite
    maps from a code point to its replacement string.  The two calls into the
    Python runtime whose behaviour depends on the Unicode character database,
    [str.lower] and [unicodedata.normalize('NFC', _)], are the methods of the
    class [Unicode]; general theorems hold for every implementation of it,
    and [latin_unicode] is an executable instance used to evaluate the
    functions on concrete Romanian text. *)

From Stdlib Require Import NArith String Ascii QArith.
From stdpp Require Import base numbers option list gmap sorting.

Local Open Scope N_scope.

(** ** Strings *)

Abbreviation char := N (only parsing).
Abbreviation str := (list N) (only parsing).

(** The source file is UTF-8; a string literal denotes the code points its
    bytes decode to.  [utf8_decode] is the decoder used to write the
    literals of the source as they appear there. *)
Fixpoint utf8_decode (bs : list N) : str :=
  match bs with
  | [] => []
  | b0 :: r0 =>
    if b0 <? 0x80 then b0 :: utf8_decode r0
    else match r0 with
    | [] => [b0]
    | b1 :: r1 =>
      if b0 <? 0xE0 then ((b0 mod 0x20) * 0x40 + b1 mod 0x40) :: utf8_decode r1
      else match r1 with
      | [] => [b0; b1]
      | b2 :: r2 =>
        if b0 <? 0xF0
        then ((b0 mod 0x10) * 0x1000 + (b1 mod 0x40) * 0x40 + b2 mod 0x40)
               :: utf8_decode r2
        else match r2 with
        | [] => [b0; b1; b2]
        | b3 :: r3 =>
          ((b0 mod 0x08) * 0x40000 + (b1 mod 0x40) * 0x1000
           + (b2 mod 0x40) * 0x40 + b3 mod 0x40) :: utf8_decode r3
        end
      end
    end
  end.

Definition u (s : string) : str :=
  utf8_decode (N_of_ascii <$> list_ascii_of_string s).
Arguments u s%_string.

(** A one-character literal, as the keys of the dictionaries are. *)
Definition chr (s : string) : char := hd 0 (u s).
Arguments chr s%_string.

(** ** The Unicode services of the runtime *)

Class Unicode := {
  (** [text.lower()] *)
  str_lower : str -> str;
  (** [unicodedata.normalize('NFC', text)] *)
  normalize_NFC : str -> str
}.

(** ** Mapping modes *)

Definition PHONEME_MAP : gmap char str :=
  list_to_map [
    (chr "ș", u "sh");   (* U+0219 *)
    (chr "Ș", u "sh");   (* U+0218 *)
    (chr "ş", u "sh");   (* U+015F *)
    (chr "Ş", u "sh");   (* U+015E *)
    (chr "ț", u "ts");   (* U+021B *)
    (chr "Ț", u "ts");   (* U+021A *)
    (chr "ţ", u "ts");   (* U+0163 *)
    (chr "Ţ", u "ts");   (* U+0162 *)
    (chr "Ă", u "ă");    (* U+0102 -> U+0103 *)
    (chr "Â", u "â");    (* U+00C2 -> U+00E2 *)
    (chr "Î", u "î")     (* U+00CE -> U+00EE *)
  ].

Definition ASCII_MAP : gmap char str :=
  list_to_map [
    (chr "ș", u "sh"); (chr "Ș", u "sh"); (chr "ş", u "sh"); (chr "Ş", u "sh");
    (chr "ț", u "ts"); (chr "Ț", u "ts"); (chr "ţ", u "ts"); (chr "Ţ", u "ts");
    (chr "ă", u "a");  (chr "Ă", u "a");
    (chr "â", u "a");  (chr "Â", u "a");
    (chr "î", u "i");  (chr "Î", u "i")
  ].

(** [char_map = PHONEME_MAP if mode == "phoneme" else ASCII_MAP] *)
Definition select_map (mode : str) : gmap char str :=
  if decide (mode = u "phoneme") then PHONEME_MAP else ASCII_MAP.

(** The body of the [for ch in text] loop: what is appended to [result]. *)
Definition map_char (char_map : gmap char str) (ch : char) : str :=
  match char_map !! ch with
  | Some r => r
  | None => [ch]
  end.

(** The loop over [text] and the final [''.join(result)]. *)
Definition apply_char_map (char_map : gmap char str) (text : str) : str :=
  let result := map_char char_map <$> text in
  concat result.

(** A text none of whose characters is a key of the map. *)
Definition key_free (char_map : gmap char str) (text : str) : Prop :=
  Forall (λ ch, char_map !! ch = None) text.

Section Preprocessor.
Context `{Unicode}.

Definition preprocess_romanian (text : str) (lowercase : bool) (mode : str) : str :=
  match text with
  | [] => text
  | _ =>
    let char_map := select_map mode in
    let text := apply_char_map char_map text in
    let text := if lowercase then str_lower text else text in
    normalize_NFC text
  end.

End Preprocessor.

(** *** String methods used by the normalizer *)

(** The code points [str.split()] treats as whitespace ([str.isspace]). *)
Definition isspace (c : char) : bool :=
  ((0x09 <=? c) && (c <=? 0x0D)) || ((0x1C <=? c) && (c <=? 0x20))
  || (c =? 0x85) || (c =? 0xA0) || (c =? 0x1680)
  || ((0x2000 <=? c) && (c <=? 0x200A))
  || (c =? 0x2028) || (c =? 0x2029) || (c =? 0x202F) || (c =? 0x205F)
  || (c =? 0x3000).

(** [text.split()]: the maximal runs of non-whitespace, in order; [w] is the
    run being read. *)
Fixpoint split_from (w : str) (text : str) : list str :=
  match text with
  | [] => match w with [] => [] | _ => [w] end
  | c :: rest =>
    if isspace c
    then match w with [] => split_from [] rest | _ => w :: split_from [] rest end
    else split_from (w ++ [c]) rest
  end.

Definition split (text : str) : list str := split_from [] text.

(** [sep.join(parts)] *)
Fixpoint join (sep : str) (parts : list str) : str :=
  match parts with
  | [] => []
  | [p] => p
  | p :: rest => p ++ sep ++ join sep rest
  end.

Definition startswith (text prefix : str) : bool :=
  bool_decide (prefix `prefix_of` text).

Definition endswith (text suffix : str) : bool :=
  bool_decide (suffix `suffix_of` text).

(** [text.replace(old, new)] for a non-empty [old]: occurrences are replaced
    left to right without overlap; [skip] counts the characters of a matched
    occurrence still to be dropped. *)
Fixpoint replace_from (old new : str) (skip : nat) (text : str) : str :=
  match text with
  | [] => []
  | c :: rest =>
    match skip with
    | S k => replace_from old new k rest
    | O =>
      if startswith text old
      then new ++ replace_from old new (Nat.pred (length old)) rest
      else c :: replace_from old new 0 rest
    end
  end.

(** With an empty [old], Python inserts [new] before every character and at
    the end. *)
Definition replace (old new : str) (text : str) : str :=
  match old with
  | [] => new ++ flat_map (fun c => c :: new) text
  | _ => replace_from old new 0 text
  end.

(** [text.rstrip(chars)] *)
Fixpoint rstrip (chars : str) (text : str) : str :=
  match text with
  | [] => []
  | c :: rest =>
    match rstrip chars rest with
    | [] => if bool_decide (c ∈ chars) then [] else [c]
    | r => c :: r
    end
  end.

(** *** Punctuation normalization *)

Definition punc_to_replace : list (str * str) := [
  (u "...", u ", ");
  (u "…", u ", ");
  (u ":", u ",");
  (u " - ", u ", ");
  (u ";", u ", ");
  (u "—", u "-");
  (u "–", u "-");
  (u " ,", u ",");
  ([0x201c], [0x22]);
  ([0x201d], [0x22]);
  ([0x2018], u "'");
  ([0x2019], u "'");
  ([0x201e], [0x22]);
  ([0x201f], [0x22])
].

(** The set [sentence_enders]; it is only tested with [any], so the order
    of its elements does not matter. *)
Definition sentence_enders : list str := [u "."; u "!"; u "?"; u "-"; u ","].

Definition fallback_sentence : str := u "you need to add some text for me to talk.".

Definition punc_norm_romanian (text : str) : str :=
  if decide (length text = 0)%nat then fallback_sentence else
  let text := join (u " ") (split text) in
  let text :=
    foldl (fun text '(old_char_sequence, new_char) =>
             replace old_char_sequence new_char text) text punc_to_replace in
  let text := rstrip (u " ") text in
  if negb (existsb (fun p => endswith text p) sentence_enders)
  then text ++ u "."
  else text.

Section Pipeline.
Context `{Unicode}.

Definition preprocess_and_normalize (text : str) (lowercase : bool) (mode : str) : str :=
  let text := preprocess_romanian text lowercase mode in
  let text := punc_norm_romanian text in
  text.

End Pipeline.

(** ** Vocabulary coverage *)

Record coverage := {
  covered : list char;
  missing : list char;
  (** the exact quotient; Python rounds it to a double *)
  coverage_pct : Q;
  total_unique : nat
}.

(** [sorted(s)] on a set of one-character strings: ascending code points. *)
Definition sorted (s : gset char) : list char := merge_sort N.le (elements s).

(** [vocab] is the token -> ID dictionary; [ch in vocab] looks the
    one-character string up among its keys. *)
Definition check_vocab_coverage (text : str) (vocab : gmap str Z) : coverage :=
  let unique_chars : gset char := list_to_set (replace (u " ") (u "") text) in
  let covered : gset char :=
    filter (fun ch => is_Some (vocab !! [ch])) unique_chars in
  let missing : gset char := unique_chars ∖ covered in
  {| covered := sorted covered;
     missing := sorted missing;
     coverage_pct :=
       (Z.of_nat (size covered) # Pos.of_nat (Nat.max (size unique_chars) 1)) * 100;
     total_unique := size unique_chars |}.

(** ** Metadata CSV *)

Inductive exn := csv_Error | IndexError.

Inductive outcome (A : Type) :=
  | Return (a : A)
  | Raise (e : exn).
Arguments Return {A} a.
Arguments Raise {A} e.

(** A computation that writes to the output file: it is run on the contents
    written so far and gives its outcome and the contents afterwards. *)
Definition io (A : Type) : Type := str -> outcome A * str.

#[global] Instance io_ret : MRet io := fun A a fout => (Return a, fout).
#[global] Instance io_bind : MBind io := fun A B f m fout =>
  match m fout with
  | (Return a, fout') => f a fout'
  | (Raise e, fout') => (Raise e, fout')
  end.
Definition raise {A} (e : exn) : io A := fun fout => (Raise e, fout).
Definition write (data : str) : io () := fun fout => (Return (), fout ++ data).

Definition delimiter : char := chr "|".
Definition quotechar : char := 0x22.
Definition lineterminator : str := [0x0D; 0x0A].

(** [open(input_path, 'r')]: text mode with universal newlines. *)
Definition universal_newlines (data : str) : str :=
  replace [0x0D] [0x0A] (replace [0x0D; 0x0A] [0x0A] data).

(** The lines of the file, without their newline. *)
Fixpoint lines_from (cur : str) (data : str) : list str :=
  match data with
  | [] => match cur with [] => [] | _ => [cur] end
  | c :: rest =>
    if c =? 0x0A then cur :: lines_from [] rest else lines_from (cur ++ [c]) rest
  end.

Fixpoint fields_from (cur : str) (line : str) : list str :=
  match line with
  | [] => [cur]
  | c :: rest =>
    if c =? delimiter then cur :: fields_from [] rest
    else fields_from (cur ++ [c]) rest
  end.

(** [csv.reader(fin, delimiter='|', quoting=csv.QUOTE_NONE)]: every line is
    cut at the delimiters, quotes are ordinary characters, and an empty line
    is the empty record.  (The reader's field size limit is not modelled.) *)
Definition csv_reader (data : str) : list (list str) :=
  (fun line => match line with [] => [] | _ => fields_from [] line end)
    <$> lines_from [] data.

(** [csv.writer(fout, delimiter='|', quoting=csv.QUOTE_NONE)]: no quote
    character and no escape character may be emitted, so a field holding
    the delimiter, the (default) quote character or a character of the line
    terminator cannot be written, and neither can a record that is a single
    empty field. *)
Definition needs_escape (c : char) : bool :=
  (c =? delimiter) || (c =? quotechar) || bool_decide (c ∈ lineterminator).

Definition writerow (row : list str) : io () :=
  if existsb (existsb needs_escape) row then raise csv_Error
  else if bool_decide (row = [[]]) then raise csv_Error
  else write (join [delimiter] row ++ lineterminator).

(** [row[i]] and [row[i] = x] *)
Definition getitem (row : list str) (i : nat) : io str :=
  match row !! i with
  | Some x => mret x
  | None => raise IndexError
  end.

Definition setitem (row : list str) (i : nat) (x : str) : io (list str) :=
  if decide (i < length row)%nat then mret (<[i := x]> row) else raise IndexError.

Section Metadata.
Context `{Unicode}.

(** The body of [for row in reader] up to the write: the row after the
    assignments. *)
Definition process_row (lowercase : bool) (mode : str) (row : list str)
  : io (list str) :=
  if decide (3 ≤ length row)%nat then
    f1 ← getitem row 1;
    row ← setitem row 1 (preprocess_romanian f1 lowercase mode);
    f2 ← getitem row 2;
    setitem row 2 (preprocess_romanian f2 lowercase mode)
  else if decide (2 ≤ length row)%nat then
    f1 ← getitem row 1;
    setitem row 1 (preprocess_romanian f1 lowercase mode)
  else mret row.

Fixpoint for_rows (lowercase : bool) (mode : str) (reader : list (list str))
    (processed_count : nat) : io nat :=
  match reader with
  | [] => mret processed_count
  | row :: reader =>
    row ← process_row lowercase mode row;
    _ ← writerow row;
    for_rows lowercase mode reader (processed_count + 1)
  end.

(** [fin] is the contents of the file at [input_path]; the result is what
    the call returns or raises, and the contents of the file at
    [output_path] when it is closed. *)
Definition preprocess_metadata_csv (fin : str) (mode : str) (lowercase : bool)
  : outcome nat * str :=
  let reader := csv_reader (universal_newlines fin) in
  for_rows lowercase mode reader 0%nat [].

(** The record the specification describes for [row]: the same fields in
    the same order, with field 1 (when there are at least two fields) and
    field 2 (when there are at least three) replaced by their mapping. *)
Definition mapped_row (lowercase : bool) (mode : str) (row : list str) : list str :=
  imap (λ i field,
          if decide ((i = 1 ∧ 2 ≤ length row) ∨ (i = 2 ∧ 3 ≤ length row))%nat
          then preprocess_romanian field lowercase mode
          else field) row.

End Metadata.


(** ** An executable Unicode instance for Latin text

    [latin_lower] is [str.lower] (CPython 3.11, Unicode 14) on the cased
    letters of Basic Latin, Latin-1 Supplement and Latin Extended-A and on
    U+0218..U+021B; the cased letters of other blocks are left as they are,
    caseless characters are unchanged as in Python. *)
Definition latin_lower_char (c : char) : str :=
  if (0x41 <=? c) && (c <=? 0x5A) then [c + 0x20]
  else if (0xC0 <=? c) && (c <=? 0xDE) && negb (c =? 0xD7) then [c + 0x20]
  else if c =? 0x130 then [0x69; 0x307]
  else if c =? 0x178 then [0xFF]
  else if (((0x100 <=? c) && (c <=? 0x137)) || ((0x14A <=? c) && (c <=? 0x177)))
          && N.even c then [c + 1]
  else if (((0x139 <=? c) && (c <=? 0x148)) || ((0x179 <=? c) && (c <=? 0x17E)))
          && N.odd c then [c + 1]
  else if (c =? 0x218) || (c =? 0x21A) then [c + 1]
  else [c].

Definition latin_lower (text : str) : str := flat_map latin_lower_char text.

(** The canonical compositions of an ASCII letter with one of the combining
    marks U+0302 (circumflex), U+0306 (breve), U+0326 (comma below) and
    U+0327 (cedilla). *)
Definition latin_compositions : gmap (char * char) char :=
  list_to_map [
    ((chr "A", 0x0302), 0x00C2); ((chr "C", 0x0302), 0x0108); ((chr "E", 0x0302), 0x00CA);
    ((chr "G", 0x0302), 0x011C); ((chr "H", 0x0302), 0x0124); ((chr "I", 0x0302), 0x00CE);
    ((chr "J", 0x0302), 0x0134); ((chr "O", 0x0302), 0x00D4); ((chr "S", 0x0302), 0x015C);
    ((chr "U", 0x0302), 0x00DB); ((chr "W", 0x0302), 0x0174); ((chr "Y", 0x0302), 0x0176);
    ((chr "Z", 0x0302), 0x1E90); ((chr "a", 0x0302), 0x00E2); ((chr "c", 0x0302), 0x0109);
    ((chr "e", 0x0302), 0x00EA); ((chr "g", 0x0302), 0x011D); ((chr "h", 0x0302), 0x0125);
    ((chr "i", 0x0302), 0x00EE); ((chr "j", 0x0302), 0x0135); ((chr "o", 0x0302), 0x00F4);
    ((chr "s", 0x0302), 0x015D); ((chr "u", 0x0302), 0x00FB); ((chr "w", 0x0302), 0x0175);
    ((chr "y", 0x0302), 0x0177); ((chr "z", 0x0302), 0x1E91); ((chr "A", 0x0306), 0x0102);
    ((chr "E", 0x0306), 0x0114); ((chr "G", 0x0306), 0x011E); ((chr "I", 0x0306), 0x012C);
    ((chr "O", 0x0306), 0x014E); ((chr "U", 0x0306), 0x016C); ((chr "a", 0x0306), 0x0103);
    ((chr "e", 0x0306), 0x0115); ((chr "g", 0x0306), 0x011F); ((chr "i", 0x0306), 0x012D);
    ((chr "o", 0x0306), 0x014F); ((chr "u", 0x0306), 0x016D); ((chr "S", 0x0326), 0x0218);
    ((chr "T", 0x0326), 0x021A); ((chr "s", 0x0326), 0x0219); ((chr "t", 0x0326), 0x021B);
    ((chr "C", 0x0327), 0x00C7); ((chr "D", 0x0327), 0x1E10); ((chr "E", 0x0327), 0x0228);
    ((chr "G", 0x0327), 0x0122); ((chr "H", 0x0327), 0x1E28); ((chr "K", 0x0327), 0x0136);
    ((chr "L", 0x0327), 0x013B); ((chr "N", 0x0327), 0x0145); ((chr "R", 0x0327), 0x0156);
    ((chr "S", 0x0327), 0x015E); ((chr "T", 0x0327), 0x0162); ((chr "c", 0x0327), 0x00E7);
    ((chr "d", 0x0327), 0x1E11); ((chr "e", 0x0327), 0x0229); ((chr "g", 0x0327), 0x0123);
    ((chr "h", 0x0327), 0x1E29); ((chr "k", 0x0327), 0x0137); ((chr "l", 0x0327), 0x013C);
    ((chr "n", 0x0327), 0x0146); ((chr "r", 0x0327), 0x0157); ((chr "s", 0x0327), 0x015F);
    ((chr "t", 0x0327), 0x0163)
  ].

(** [latin_compose] is NFC on strings made of code points below U+0300 and
    of the four marks above, in which every mark directly follows an ASCII
    character: each such pair is replaced by its composition when it has
    one, and nothing else changes (no code point below U+0300 is changed by
    NFC). *)
Fixpoint latin_compose (text : str) : str :=
  match text with
  | [] => []
  | b :: rest =>
    match rest with
    | [] => [b]
    | m :: rest' =>
      match latin_compositions !! (b, m) with
      | Some c => c :: latin_compose rest'
      | None => b :: latin_compose rest
      end
    end
  end.

#[global] Instance latin_unicode : Unicode :=
  {| str_lower := latin_lower; normalize_NFC := latin_compose |}.

(** * Properties *)

(** ** The literals denote the code points the source documents *)

Example PHONEME_MAP_dom :
  dom PHONEME_MAP =
    list_to_set [0x219; 0x218; 0x15F; 0x15E; 0x21B; 0x21A; 0x163; 0x162;
                 0x102; 0xC2; 0xCE].
Proof. unfold PHONEME_MAP. rewrite dom_list_to_map_L. reflexivity. Qed.

Example ASCII_MAP_dom :
  dom ASCII_MAP =
    list_to_set [0x219; 0x218; 0x15F; 0x15E; 0x21B; 0x21A; 0x163; 0x162;
                 0x103; 0x102; 0xE2; 0xC2; 0xEE; 0xCE].
Proof. unfold ASCII_MAP. rewrite dom_list_to_map_L. reflexivity. Qed.

(** ** Character mapping: the documented example *)

(** C1 (as stated): the character-mapping step does not produce the string
    of the docstring example on ["Știință și înțelepciune."]. *)
Lemma docstring_example_not_produced :
  preprocess_romanian (u "Știință și înțelepciune.") true (u "phoneme")
  ≠ u "shtiiintsa shi intseleptsiune.".
Proof. vm_compute. discriminate. Qed.

(** C1 (amended): in phoneme mode with lowercasing,
    ["Știință și înțelepciune."] is mapped to ["shtiintsă shi întselepciune."]:
    ș and ț become "sh" and "ts", ă and î are kept, every other character is
    unchanged. *)
Theorem preprocess_romanian_example :
  preprocess_romanian (u "Știință și înțelepciune.") true (u "phoneme")
  = u "shtiintsă shi întselepciune.".
Proof. vm_compute. reflexivity. Qed.

(** ** Mode selection *)

Section Mode.
Context `{Unicode}.

Lemma select_map_phoneme : select_map (u "phoneme") = PHONEME_MAP.
Proof. reflexivity. Qed.

Lemma select_map_ascii : select_map (u "ascii") = ASCII_MAP.
Proof. reflexivity. Qed.

Lemma select_map_other mode : mode ≠ u "phoneme" → select_map mode = ASCII_MAP.
Proof. intros Hne. unfold select_map. by destruct (decide (mode = u "phoneme")). Qed.

(** C9: on a non-empty text, every mode string other than ["phoneme"] selects
    the ASCII map, and the call returns what mode ["ascii"] returns (the
    function is total: no mode makes it fail). *)
Theorem preprocess_romanian_unknown_mode_is_ascii text lowercase mode :
  text ≠ [] →
  mode ≠ u "phoneme" →
  select_map mode = ASCII_MAP
  ∧ preprocess_romanian text lowercase mode
    = preprocess_romanian text lowercase (u "ascii").
Proof.
  intros _ Hne. split; [by apply select_map_other|].
  unfold preprocess_romanian. destruct text as [|c text]; [done|].
  by rewrite select_map_other, select_map_ascii.
Qed.

End Mode.

Lemma preprocess_romanian_unknown_mode_is_ascii_witness :
  u "Țara mea frumoasă." ≠ []
  ∧ u "Phoneme" ≠ u "phoneme"
  ∧ select_map (u "Phoneme") = ASCII_MAP
  ∧ preprocess_romanian (u "Țara mea frumoasă.") true (u "Phoneme")
    = preprocess_romanian (u "Țara mea frumoasă.") true (u "ascii").
Proof.
  assert (Htext : u "Țara mea frumoasă." ≠ []) by (vm_compute; discriminate).
  assert (Hmode : u "Phoneme" ≠ u "phoneme") by (vm_compute; discriminate).
  split; [exact Htext|]. split; [exact Hmode|].
  exact (preprocess_romanian_unknown_mode_is_ascii
           (u "Țara mea frumoasă.") true (u "Phoneme") Htext Hmode).
Defined.

(** ** Punctuation normalization *)

Lemma last_of_suffix (c : char) (text : str) :
  [c] `suffix_of` text → last text = Some c.
Proof. intros [k ->]. apply last_snoc. Qed.

Lemma sentence_enders_elem p :
  In p sentence_enders → ∃ c, p = [c] ∧ [c] ∈ sentence_enders.
Proof.
  intros Hin. assert (Hall : Forall (λ q, ∃ c, q = [c] ∧ [c] ∈ sentence_enders)
                               sentence_enders).
  { repeat constructor; eexists; (split; [reflexivity|]);
      apply list_elem_of_In; vm_compute; tauto. }
  rewrite Forall_forall in Hall. apply Hall. by apply list_elem_of_In.
Qed.

(** C3: whatever the input, the normalized text ends with one of the
    sentence enders ".", "!", "?", "-", ",". *)
Theorem punc_norm_romanian_ends_with_ender text :
  ∃ c, last (punc_norm_romanian text) = Some c ∧ [c] ∈ sentence_enders.
Proof.
  unfold punc_norm_romanian. destruct (decide (length text = 0%nat)) as [_|_].
  - exists (chr "."). split; [reflexivity|].
    apply list_elem_of_In. vm_compute. tauto.
  - set (t := rstrip _ _). destruct (existsb _ _) eqn:Hany; simpl.
    + apply existsb_exists in Hany as (p & Hin & Hp).
      destruct (sentence_enders_elem p Hin) as (c & -> & Hc).
      exists c. split; [|done].
      apply last_of_suffix. unfold endswith in Hp.
      by apply bool_decide_eq_true in Hp.
    + exists (chr "."). split.
      * change (u ".") with [chr "."]. apply last_snoc.
      * apply list_elem_of_In. vm_compute. tauto.
Qed.

(** C4: the empty string is normalized to the fixed fallback sentence, which
    is not empty. *)
Theorem punc_norm_romanian_empty :
  punc_norm_romanian [] = u "you need to add some text for me to talk."
  ∧ punc_norm_romanian [] ≠ [].
Proof. split; [reflexivity|]. vm_compute. discriminate. Qed.

Lemma split_whitespace text :
  Forall (λ c, isspace c = true) text → split text = [].
Proof.
  unfold split. induction 1 as [|c text Hc _ IH]; simpl; [done|].
  by rewrite Hc.
Qed.

(** C10: a non-empty text made of whitespace only is not given the fallback
    sentence; it is normalized to ["."]. *)
Theorem punc_norm_romanian_whitespace_only text :
  text ≠ [] →
  Forall (λ c, isspace c = true) text →
  punc_norm_romanian text = u "."
  ∧ punc_norm_romanian text ≠ punc_norm_romanian [].
Proof.
  intros Hne Hws. assert (Heq : punc_norm_romanian text = u ".").
  { unfold punc_norm_romanian.
    destruct (decide (length text = 0%nat)) as [Hlen|_].
    - by destruct text.
    - rewrite (split_whitespace text Hws). reflexivity. }
  split; [done|]. rewrite Heq. vm_compute. discriminate.
Qed.

Lemma punc_norm_romanian_whitespace_only_witness :
  let text := [0x20; 0x09; 0xA0; 0x0A] in
  text ≠ []
  ∧ Forall (λ c, isspace c = true) text
  ∧ punc_norm_romanian text = u "."
  ∧ punc_norm_romanian text ≠ punc_norm_romanian [].
Proof.
  assert (Hne : [0x20; 0x09; 0xA0; 0x0A] ≠ []) by discriminate.
  assert (Hws : Forall (λ c, isspace c = true) [0x20; 0x09; 0xA0; 0x0A])
    by (repeat constructor).
  split; [exact Hne|]. split; [exact Hws|].
  exact (punc_norm_romanian_whitespace_only [0x20; 0x09; 0xA0; 0x0A] Hne Hws).
Defined.

(** ** Character mapping *)

Lemma apply_char_map_app char_map s1 s2 :
  apply_char_map char_map (s1 ++ s2)
  = apply_char_map char_map s1 ++ apply_char_map char_map s2.
Proof. unfold apply_char_map. by rewrite fmap_app, concat_app. Qed.

Lemma apply_char_map_cons char_map ch text :
  apply_char_map char_map (ch :: text)
  = map_char char_map ch ++ apply_char_map char_map text.
Proof. reflexivity. Qed.

Lemma map_char_outside char_map ch :
  char_map !! ch = None → map_char char_map ch = [ch].
Proof. unfold map_char. by intros ->. Qed.

Lemma apply_char_map_key_free char_map text :
  key_free char_map text → apply_char_map char_map text = text.
Proof.
  induction 1 as [|ch text Hch _ IH]; [done|].
  by rewrite apply_char_map_cons, map_char_outside, IH.
Qed.

(** No replacement string of either map holds a key of that map. *)
Lemma PHONEME_MAP_values_key_free :
  map_Forall (λ _ r, key_free PHONEME_MAP r) PHONEME_MAP.
Proof. unfold key_free. apply (bool_decide_unpack _). by vm_compute. Qed.

Lemma ASCII_MAP_values_key_free :
  map_Forall (λ _ r, key_free ASCII_MAP r) ASCII_MAP.
Proof. unfold key_free. apply (bool_decide_unpack _). by vm_compute. Qed.

Lemma select_map_values_key_free mode :
  map_Forall (λ _ r, key_free (select_map mode) r) (select_map mode).
Proof.
  unfold select_map. destruct (decide _).
  - apply PHONEME_MAP_values_key_free.
  - apply ASCII_MAP_values_key_free.
Qed.

Lemma apply_char_map_result_key_free mode text :
  key_free (select_map mode) (apply_char_map (select_map mode) text).
Proof.
  induction text as [|ch text IH]; [constructor|].
  rewrite apply_char_map_cons. apply Forall_app. split; [|done].
  unfold map_char. destruct (select_map mode !! ch) as [r|] eqn:Hch.
  - by apply (select_map_values_key_free mode ch r).
  - by constructor.
Qed.

Section Mapping.
Context `{Unicode}.

Lemma preprocess_romanian_nonempty text lowercase mode :
  text ≠ [] →
  preprocess_romanian text lowercase mode
  = normalize_NFC (let mapped := apply_char_map (select_map mode) text in
                   if lowercase then str_lower mapped else mapped).
Proof. by destruct text. Qed.

(** C2 (amended): with lowercasing disabled, and provided NFC normalization
    leaves the mapped text unchanged, a character that is not a key of the
    selected map appears unchanged in the output, between the images of the
    text before it and of the text after it. *)
Theorem preprocess_romanian_keeps_unmapped mode before ch after :
  select_map mode !! ch = None →
  normalize_NFC (apply_char_map (select_map mode) (before ++ ch :: after))
  = apply_char_map (select_map mode) (before ++ ch :: after) →
  preprocess_romanian (before ++ ch :: after) false mode
  = apply_char_map (select_map mode) before
    ++ ch :: apply_char_map (select_map mode) after.
Proof.
  intros Hch Hnfc. rewrite preprocess_romanian_nonempty by by destruct before.
  simpl. rewrite Hnfc, apply_char_map_app, apply_char_map_cons.
  by rewrite map_char_outside.
Qed.

(** C5 (amended): with lowercasing enabled, and provided NFC normalization
    leaves the mapped and lowercased text unchanged, applying the mapping a
    second time changes nothing.  The two facts about [str.lower] used are
    that lowercasing twice is lowercasing once and that lowercasing never
    turns a character that is not a key into a key. *)
Theorem preprocess_romanian_idempotent_when_composed text mode :
  (∀ t, str_lower (str_lower t) = str_lower t) →
  (∀ t, key_free (select_map mode) t → key_free (select_map mode) (str_lower t)) →
  normalize_NFC (str_lower (apply_char_map (select_map mode) text))
  = str_lower (apply_char_map (select_map mode) text) →
  preprocess_romanian (preprocess_romanian text true mode) true mode
  = preprocess_romanian text true mode.
Proof.
  intros Hidem Hkeys Hnfc. destruct text as [|c0 text]; [done|].
  rewrite (preprocess_romanian_nonempty (c0 :: text)) by done. simpl.
  set (mapped := str_lower _) in *. rewrite Hnfc.
  destruct (decide (mapped = [])) as [->|Hne]; [done|].
  rewrite preprocess_romanian_nonempty by done. simpl.
  rewrite apply_char_map_key_free.
  - subst mapped. by rewrite Hidem.
  - apply Hkeys, apply_char_map_result_key_free.
Qed.

End Mapping.

(** *** The Latin instance satisfies the two facts about lowercasing *)

Lemma forallb_below (P : char → bool) (n : nat) :
  forallb P (N.of_nat <$> seq 0 n) = true → ∀ c, c < N.of_nat n → P c = true.
Proof.
  intros Hall c Hc. rewrite forallb_forall in Hall. apply Hall.
  apply list_elem_of_In, list_elem_of_fmap. exists (N.to_nat c).
  split; [by rewrite N2Nat.id|]. apply elem_of_seq. lia.
Qed.

Ltac above_table c :=
  repeat match goal with
  | |- context [c <=? ?k] => rewrite (proj2 (N.leb_gt c k)) by lia
  | |- context [c =? ?k] => rewrite (proj2 (N.eqb_neq c k)) by lia
  end;
  rewrite ?andb_false_r; simpl.

Lemma latin_lower_char_above c : 0x21C ≤ c → latin_lower_char c = [c].
Proof. intros Hc. unfold latin_lower_char. by above_table c. Qed.

Lemma latin_lower_char_idempotent c :
  latin_lower (latin_lower_char c) = latin_lower_char c.
Proof.
  destruct (decide (c < 0x21C)) as [Hc|Hc].
  - apply (proj1 (bool_decide_eq_true _)).
    revert c Hc. change 0x21C with (N.of_nat 540).
    apply (forallb_below (λ c, bool_decide
             (latin_lower (latin_lower_char c) = latin_lower_char c))).
    by vm_compute.
  - rewrite latin_lower_char_above by lia. simpl.
    rewrite latin_lower_char_above by lia. done.
Qed.

Lemma latin_lower_app s1 s2 : latin_lower (s1 ++ s2) = latin_lower s1 ++ latin_lower s2.
Proof. apply flat_map_app. Qed.

Lemma latin_lower_idempotent text : latin_lower (latin_lower text) = latin_lower text.
Proof.
  induction text as [|c text IH]; [done|]. simpl.
  by rewrite latin_lower_app, latin_lower_char_idempotent, IH.
Qed.

Lemma latin_lower_char_key_free char_map c :
  char_map = PHONEME_MAP ∨ char_map = ASCII_MAP →
  char_map !! c = None → key_free char_map (latin_lower_char c).
Proof.
  intros Hmap Hnone. destruct (decide (c < 0x21C)) as [Hc|Hc].
  - revert Hnone. unfold key_free. apply (proj1 (bool_decide_eq_true _)).
    revert c Hc. change 0x21C with (N.of_nat 540).
    destruct Hmap as [-> | ->].
    + apply (forallb_below (λ c, bool_decide
               (PHONEME_MAP !! c = None →
                Forall (λ ch, PHONEME_MAP !! ch = None) (latin_lower_char c)))).
      by vm_compute.
    + apply (forallb_below (λ c, bool_decide
               (ASCII_MAP !! c = None →
                Forall (λ ch, ASCII_MAP !! ch = None) (latin_lower_char c)))).
      by vm_compute.
  - rewrite latin_lower_char_above by lia. by constructor.
Qed.

Lemma latin_lower_key_free mode text :
  key_free (select_map mode) text → key_free (select_map mode) (latin_lower text).
Proof.
  induction 1 as [|c text Hc _ IH]; [constructor|]. simpl.
  apply Forall_app. split; [|done].
  apply latin_lower_char_key_free; [|done].
  unfold select_map. destruct (decide _); auto.
Qed.

(** *** Decomposed input *)

(** C2 (as stated): with lowercasing disabled, "a" followed by a combining
    breve holds no key of the phoneme map, yet its characters do not all
    appear in the output: NFC composes the pair into "ă". *)
Lemma preprocess_romanian_composes_unmapped :
  let text := [chr "a"; 0x306] in
  preprocess_romanian text false (u "phoneme") = u "ă"
  ∧ ¬ (∀ ch, ch ∈ text → select_map (u "phoneme") !! ch = None →
             ch ∈ preprocess_romanian text false (u "phoneme")).
Proof.
  split; [reflexivity|]. intros Hall.
  assert (Hin : chr "a" ∈ preprocess_romanian [chr "a"; 0x306] false (u "phoneme")).
  { apply Hall; [apply list_elem_of_here | reflexivity]. }
  apply list_elem_of_In in Hin. vm_compute in Hin.
  destruct Hin as [Heq|[]]. discriminate.
Qed.

Lemma preprocess_romanian_keeps_unmapped_witness :
  let mode := u "phoneme" in
  let text := u "Ț" ++ chr "a" :: u "ra mea" in
  select_map mode !! chr "a" = None
  ∧ normalize_NFC (apply_char_map (select_map mode) text)
    = apply_char_map (select_map mode) text
  ∧ preprocess_romanian text false mode
    = apply_char_map (select_map mode) (u "Ț")
      ++ chr "a" :: apply_char_map (select_map mode) (u "ra mea").
Proof.
  assert (Hkey : select_map (u "phoneme") !! chr "a" = None) by reflexivity.
  assert (Hnfc : normalize_NFC (apply_char_map (select_map (u "phoneme"))
                                  (u "Ț" ++ chr "a" :: u "ra mea"))
                 = apply_char_map (select_map (u "phoneme"))
                     (u "Ț" ++ chr "a" :: u "ra mea")) by (vm_compute; reflexivity).
  split; [exact Hkey|]. split; [exact Hnfc|].
  exact (preprocess_romanian_keeps_unmapped
           (u "phoneme") (u "Ț") (chr "a") (u "ra mea") Hkey Hnfc).
Defined.

(** C5 (as stated): "s" followed by a combining comma below is mapped to "ș"
    (NFC composes the pair after the mapping), and mapping that result again
    gives "sh": the operation is not idempotent. *)
Lemma preprocess_romanian_not_idempotent :
  let text := [chr "s"; 0x326] in
  preprocess_romanian text true (u "phoneme") = u "ș"
  ∧ preprocess_romanian (preprocess_romanian text true (u "phoneme")) true (u "phoneme")
    = u "sh"
  ∧ preprocess_romanian (preprocess_romanian text true (u "phoneme")) true (u "phoneme")
    ≠ preprocess_romanian text true (u "phoneme").
Proof. repeat split; try reflexivity. vm_compute. discriminate. Qed.

Lemma preprocess_romanian_idempotent_when_composed_witness :
  let mode := u "ascii" in
  let text := u "Știință și înțelepciune." in
  (∀ t, str_lower (str_lower t) = str_lower t)
  ∧ (∀ t, key_free (select_map mode) t → key_free (select_map mode) (str_lower t))
  ∧ normalize_NFC (str_lower (apply_char_map (select_map mode) text))
    = str_lower (apply_char_map (select_map mode) text)
  ∧ preprocess_romanian (preprocess_romanian text true mode) true mode
    = preprocess_romanian text true mode.
Proof.
  assert (Hnfc : normalize_NFC (str_lower (apply_char_map (select_map (u "ascii"))
                                             (u "Știință și înțelepciune.")))
                 = str_lower (apply_char_map (select_map (u "ascii"))
                                (u "Știință și înțelepciune.")))
    by (vm_compute; reflexivity).
  split; [exact latin_lower_idempotent|].
  split; [exact (latin_lower_key_free (u "ascii"))|].
  split; [exact Hnfc|].
  exact (preprocess_romanian_idempotent_when_composed
           (u "Știință și înțelepciune.") (u "ascii")
           latin_lower_idempotent (latin_lower_key_free (u "ascii")) Hnfc).
Defined.

(** ** Vocabulary coverage *)

Lemma replace_space_filter text :
  replace (u " ") (u "") text = filter (λ ch, ch ≠ chr " ") text.
Proof.
  change (u " ") with [chr " "]. change (u "") with (@nil char).
  unfold replace. induction text as [|c text IH]; [done|].
  cbn [replace_from]. unfold startswith.
  destruct (decide (c = chr " ")) as [->|Hc].
  - rewrite bool_decide_eq_true_2 by (by apply prefix_cons, prefix_nil).
    rewrite filter_cons_False by (by intros []). exact IH.
  - rewrite bool_decide_eq_false_2.
    + rewrite filter_cons_True by done. by rewrite IH.
    + intros Hpre. by apply prefix_cons_inv_1 in Hpre.
Qed.

Lemma list_to_set_sorted (s : gset char) : list_to_set (sorted s) = s.
Proof.
  unfold sorted. rewrite (list_to_set_perm_L _ _ (merge_sort_Permutation _ _)).
  apply list_to_set_elements_L.
Qed.

(** C7 (as stated): a tab is whitespace, and it is not excluded: on
    ["a<TAB>b"] the tab is reported missing, so covered and missing together
    are not the non-whitespace characters of the text. *)
Lemma check_vocab_coverage_counts_tab :
  let text := u "a" ++ [0x09] ++ u "b" in
  let r := check_vocab_coverage text ∅ in
  missing r = [0x09; chr "a"; chr "b"]
  ∧ (list_to_set (covered r) ∪ list_to_set (missing r) : gset char)
    ≠ list_to_set (filter (λ ch, isspace ch = false) text).
Proof.
  split; [by vm_compute|]. intros Heq.
  assert (Hin : 0x09 ∈ (list_to_set (filter (λ ch, isspace ch = false)
                          (u "a" ++ [0x09] ++ u "b")) : gset char)).
  { rewrite <- Heq. apply elem_of_union_r, elem_of_list_to_set.
    apply list_elem_of_In. vm_compute. tauto. }
  apply elem_of_list_to_set, list_elem_of_filter in Hin as [Hsp _].
  discriminate.
Qed.

(** C7 (amended): the covered and the missing characters are disjoint, and
    together they are the characters of the text other than the space
    U+0020 (other whitespace, such as a tab or a newline, is counted like any
    character). *)
Theorem check_vocab_coverage_partition text vocab :
  let r := check_vocab_coverage text vocab in
  (list_to_set (covered r) : gset char) ## list_to_set (missing r)
  ∧ (list_to_set (covered r) ∪ list_to_set (missing r) : gset char)
    = list_to_set (filter (λ ch, ch ≠ chr " ") text).
Proof.
  unfold check_vocab_coverage. cbn [covered missing].
  rewrite !list_to_set_sorted, replace_space_filter.
  set (unique_chars := list_to_set _ : gset char).
  split.
  { intros ch Hcov Hmiss. apply elem_of_difference in Hmiss as [_ Hmiss]. done. }
  apply set_eq. intros ch. rewrite elem_of_union, elem_of_difference, elem_of_filter.
  destruct (decide (is_Some (vocab !! [ch]))); tauto.
Qed.

(** ** The full pipeline *)

Section Determinism.
Context `{Unicode}.


End Determinism.


(** ** Metadata CSV *)

Section MetadataRows.
Context `{Unicode}.

(** The assignments of the loop body never fail, and leave the record the
    specification describes. *)
Lemma imap_unchanged {A} (f : nat → A → A) (l : list A) :
  (∀ i x, f i x = x) → imap f l = l.
Proof.
  revert f. induction l as [|x l IH]; intros f Hf; [done|].
  cbn. rewrite Hf. f_equal. apply IH. intros i y. apply Hf.
Qed.

Lemma process_row_mapped lowercase mode row fout :
  process_row lowercase mode row fout = (Return (mapped_row lowercase mode row), fout).
Proof.
  unfold process_row, mapped_row.
  destruct row as [|f0 [|f1 [|f2 rest]]]; cbn [length];
    repeat (destruct (decide (_ ≤ _)%nat) as [Hlen|Hlen]; try lia);
    unfold getitem, setitem, mbind, io_bind, mret, io_ret; cbn;
    repeat (case_decide; cbn in *; try lia); try done.
  rewrite imap_unchanged; [done|]. intros i x. unfold compose.
  destruct (decide _) as [Hi|_]; [lia|done].
Qed.

Lemma length_mapped_row lowercase mode row :
  length (mapped_row lowercase mode row) = length row.
Proof. apply length_imap. Qed.




End MetadataRows.

(** C6 (failing input): the second record holds double quotes.  The reader
    takes them as ordinary characters, but the writer, which may neither
    quote nor escape, refuses the record: the call raises [csv.Error] after
    the first record, the second is not written and no count is returned. *)
Theorem preprocess_metadata_csv_quote_raises :
  let fin := u "001|Bună ziua|Bună ziua" ++ [0x0A]
             ++ u "002|Zise " ++ [quotechar] ++ u "da" ++ [quotechar] ++ u "|zise da"
             ++ [0x0A] in
  csv_reader (universal_newlines fin)
  = [[u "001"; u "Bună ziua"; u "Bună ziua"];
     [u "002"; u "Zise " ++ [quotechar] ++ u "da" ++ [quotechar]; u "zise da"]]
  ∧ preprocess_metadata_csv fin (u "phoneme") true
    = (Raise csv_Error, u "001|bună ziua|bună ziua" ++ lineterminator).
Proof. split; by vm_compute. Qed.

(** * Further properties of the character mapping *)

Lemma PHONEME_MAP_values_length :
  map_Forall (λ _ r, 1 ≤ length r ≤ 2)%nat PHONEME_MAP.
Proof. apply (bool_decide_unpack _). by vm_compute. Qed.

Lemma ASCII_MAP_values_length :
  map_Forall (λ _ r, 1 ≤ length r ≤ 2)%nat ASCII_MAP.
Proof. apply (bool_decide_unpack _). by vm_compute. Qed.

Lemma map_char_length mode ch :
  (1 ≤ length (map_char (select_map mode) ch) ≤ 2)%nat.
Proof.
  unfold map_char. destruct (select_map mode !! ch) as [r|] eqn:Hch; [|simpl; lia].
  revert Hch. unfold select_map. destruct (decide _); intros Hch.
  - exact (PHONEME_MAP_values_length ch r Hch).
  - exact (ASCII_MAP_values_length ch r Hch).
Qed.

Lemma apply_char_map_length mode text :
  (length text ≤ length (apply_char_map (select_map mode) text) ≤ 2 * length text)%nat.
Proof.
  induction text as [|ch text IH]; [simpl; lia|].
  rewrite apply_char_map_cons, length_app. cbn [length].
  pose proof (map_char_length mode ch). lia.
Qed.

(** Every replacement of the ASCII map is what the ASCII map makes of the
    replacement of the phoneme map. *)
Lemma ASCII_after_PHONEME_char ch :
  apply_char_map ASCII_MAP (map_char PHONEME_MAP ch) = map_char ASCII_MAP ch.
Proof.
  unfold map_char at 1. destruct (PHONEME_MAP !! ch) as [r|] eqn:Hch.
  - revert ch r Hch.
    assert (Hall : map_Forall (λ ch r, apply_char_map ASCII_MAP r = map_char ASCII_MAP ch)
                     PHONEME_MAP).
    { apply (bool_decide_unpack _). by vm_compute. }
    exact Hall.
  - rewrite apply_char_map_cons. apply app_nil_r.
Qed.

Lemma ASCII_after_PHONEME text :
  apply_char_map ASCII_MAP (apply_char_map PHONEME_MAP text)
  = apply_char_map ASCII_MAP text.
Proof.
  induction text as [|ch text IH]; [done|].
  rewrite !apply_char_map_cons, apply_char_map_app, IH.
  by rewrite ASCII_after_PHONEME_char.
Qed.

Section MappingMore.
Context `{Unicode}.

(** X1: with lowercasing disabled, when NFC leaves the mapped text
    unchanged, the output is at least as long as the input and at most twice
    as long (a character is replaced by one or two characters, never
    removed). *)
Theorem preprocess_romanian_length text mode :
  normalize_NFC (apply_char_map (select_map mode) text)
  = apply_char_map (select_map mode) text →
  (length text ≤ length (preprocess_romanian text false mode) ≤ 2 * length text)%nat.
Proof.
  intros Hnfc. destruct text as [|c0 text]; [simpl; lia|].
  rewrite preprocess_romanian_nonempty by done. cbn zeta. rewrite Hnfc.
  apply apply_char_map_length.
Qed.

(** X2: with lowercasing disabled, mapping in ascii mode what phoneme mode
    returned gives what ascii mode returns on the original text (when NFC
    changes neither mapped text): the ascii mode is the phoneme mode
    followed by the collapse of ă, â and î. *)
Theorem preprocess_romanian_ascii_after_phoneme text :
  normalize_NFC (apply_char_map PHONEME_MAP text) = apply_char_map PHONEME_MAP text →
  normalize_NFC (apply_char_map ASCII_MAP text) = apply_char_map ASCII_MAP text →
  preprocess_romanian (preprocess_romanian text false (u "phoneme")) false (u "ascii")
  = preprocess_romanian text false (u "ascii").
Proof.
  intros Hp Ha. destruct text as [|c0 text]; [done|].
  rewrite !(preprocess_romanian_nonempty (c0 :: text)) by done. cbn zeta.
  rewrite select_map_phoneme, select_map_ascii, Hp, Ha.
  destruct (apply_char_map PHONEME_MAP (c0 :: text)) as [|d0 mapped] eqn:Hmapped.
  - pose proof (apply_char_map_length (u "phoneme") (c0 :: text)) as Hlen.
    rewrite select_map_phoneme, Hmapped in Hlen. simpl in Hlen. lia.
  - rewrite preprocess_romanian_nonempty by done. cbn zeta.
    by rewrite select_map_ascii, <- Hmapped, ASCII_after_PHONEME, Ha.
Qed.

(** X3: the output holds no key of the selected map (in phoneme mode no ș,
    ț or capital Ă, Â, Î is left; in ascii mode no Romanian letter at all),
    for a text that NFC leaves unchanged once mapped and lowercased;
    lowercasing is assumed not to turn a text without keys into one with a
    key. *)
Theorem preprocess_romanian_key_free text (lowercase : bool) mode :
  (∀ t, key_free (select_map mode) t → key_free (select_map mode) (str_lower t)) →
  (let mapped := apply_char_map (select_map mode) text in
   let lowered := if lowercase then str_lower mapped else mapped in
   normalize_NFC lowered = lowered) →
  key_free (select_map mode) (preprocess_romanian text lowercase mode).
Proof.
  intros Hkeys Hnfc. destruct text as [|c0 text]; [constructor|].
  rewrite preprocess_romanian_nonempty by done. cbn zeta in *. rewrite Hnfc.
  destruct lowercase.
  - apply Hkeys, apply_char_map_result_key_free.
  - apply apply_char_map_result_key_free.
Qed.

End MappingMore.

Lemma preprocess_romanian_length_witness :
  let text := u "Știință și înțelepciune." in
  normalize_NFC (apply_char_map (select_map (u "phoneme")) text)
  = apply_char_map (select_map (u "phoneme")) text
  ∧ (length text ≤ length (preprocess_romanian text false (u "phoneme"))
     ≤ 2 * length text)%nat.
Proof.
  assert (Hnfc : normalize_NFC (apply_char_map (select_map (u "phoneme"))
                                  (u "Știință și înțelepciune."))
                 = apply_char_map (select_map (u "phoneme"))
                     (u "Știință și înțelepciune.")) by (vm_compute; reflexivity).
  split; [exact Hnfc|].
  exact (preprocess_romanian_length (u "Știință și înțelepciune.") (u "phoneme") Hnfc).
Defined.

Lemma preprocess_romanian_ascii_after_phoneme_witness :
  let text := u "ȚARA MEA FRUMOASĂ, ÎN ÂȘ." in
  normalize_NFC (apply_char_map PHONEME_MAP text) = apply_char_map PHONEME_MAP text
  ∧ normalize_NFC (apply_char_map ASCII_MAP text) = apply_char_map ASCII_MAP text
  ∧ preprocess_romanian (preprocess_romanian text false (u "phoneme")) false (u "ascii")
    = preprocess_romanian text false (u "ascii").
Proof.
  assert (Hp : normalize_NFC (apply_char_map PHONEME_MAP (u "ȚARA MEA FRUMOASĂ, ÎN ÂȘ."))
               = apply_char_map PHONEME_MAP (u "ȚARA MEA FRUMOASĂ, ÎN ÂȘ."))
    by (vm_compute; reflexivity).
  assert (Ha : normalize_NFC (apply_char_map ASCII_MAP (u "ȚARA MEA FRUMOASĂ, ÎN ÂȘ."))
               = apply_char_map ASCII_MAP (u "ȚARA MEA FRUMOASĂ, ÎN ÂȘ."))
    by (vm_compute; reflexivity).
  split; [exact Hp|]. split; [exact Ha|].
  exact (preprocess_romanian_ascii_after_phoneme (u "ȚARA MEA FRUMOASĂ, ÎN ÂȘ.") Hp Ha).
Defined.

Lemma preprocess_romanian_key_free_witness :
  let mode := u "phoneme" in
  let text := u "ȚARA MEA FRUMOASĂ, ÎN ÂȘ." in
  (∀ t, key_free (select_map mode) t → key_free (select_map mode) (str_lower t))
  ∧ normalize_NFC (str_lower (apply_char_map (select_map mode) text))
    = str_lower (apply_char_map (select_map mode) text)
  ∧ key_free (select_map mode) (preprocess_romanian text true mode).
Proof.
  assert (Hnfc : normalize_NFC (str_lower (apply_char_map (select_map (u "phoneme"))
                                             (u "ȚARA MEA FRUMOASĂ, ÎN ÂȘ.")))
                 = str_lower (apply_char_map (select_map (u "phoneme"))
                                (u "ȚARA MEA FRUMOASĂ, ÎN ÂȘ.")))
    by (vm_compute; reflexivity).
  split; [exact (latin_lower_key_free (u "phoneme"))|]. split; [exact Hnfc|].
  exact (preprocess_romanian_key_free (u "ȚARA MEA FRUMOASĂ, ÎN ÂȘ.") true (u "phoneme")
           (latin_lower_key_free (u "phoneme")) Hnfc).
Defined.

(** *** ASCII mode *)

Lemma ASCII_MAP_values_ascii :
  map_Forall (λ _ r, Forall (λ c, c < 0x80) r) ASCII_MAP.
Proof. apply (bool_decide_unpack _). by vm_compute. Qed.

Lemma apply_ASCII_MAP_ascii text :
  Forall (λ c, c < 0x80 ∨ is_Some (ASCII_MAP !! c)) text →
  Forall (λ c, c < 0x80) (apply_char_map ASCII_MAP text).
Proof.
  induction 1 as [|ch text Hch _ IH]; [constructor|].
  rewrite apply_char_map_cons. apply Forall_app. split; [|done].
  unfold map_char. destruct (ASCII_MAP !! ch) as [r|] eqn:Hr.
  - exact (ASCII_MAP_values_ascii ch r Hr).
  - constructor; [|constructor]. destruct Hch as [Hlt|[r Hr']]; [done|congruence].
Qed.

Section AsciiMode.
Context `{Unicode}.

(** X4: in ascii mode, a text written with ASCII characters and the
    Romanian letters of the ASCII map is mapped to pure ASCII, whatever the
    lowercase flag.  Assumed of the runtime: lowercasing an ASCII text gives
    an ASCII text, and NFC leaves an ASCII text unchanged. *)
Theorem preprocess_romanian_ascii_mode_pure_ascii text (lowercase : bool) :
  (∀ t, Forall (λ c, c < 0x80) t → Forall (λ c, c < 0x80) (str_lower t)) →
  (∀ t, Forall (λ c, c < 0x80) t → normalize_NFC t = t) →
  Forall (λ c, c < 0x80 ∨ is_Some (ASCII_MAP !! c)) text →
  Forall (λ c, c < 0x80) (preprocess_romanian text lowercase (u "ascii")).
Proof.
  intros Hlower Hnfc Htext. destruct text as [|c0 text]; [constructor|].
  rewrite preprocess_romanian_nonempty by done. cbn zeta.
  rewrite select_map_ascii.
  pose proof (apply_ASCII_MAP_ascii _ Htext) as Hmapped.
  destruct lowercase.
  - rewrite Hnfc; by apply Hlower.
  - by rewrite Hnfc.
Qed.

End AsciiMode.

Lemma latin_lower_ascii text :
  Forall (λ c, c < 0x80) text → Forall (λ c, c < 0x80) (latin_lower text).
Proof.
  induction 1 as [|c text Hc _ IH]; [constructor|]. simpl.
  apply Forall_app. split; [|done]. revert c Hc.
  change 0x80 with (N.of_nat 128) at 1. intros c Hc.
  apply (proj1 (bool_decide_eq_true _)). revert c Hc.
  apply (forallb_below (λ c, bool_decide (Forall (λ d, d < 0x80) (latin_lower_char c)))).
  by vm_compute.
Qed.

Lemma latin_compositions_marks :
  map_Forall (λ k _, 0x300 ≤ k.2) latin_compositions.
Proof. apply (bool_decide_unpack _). by vm_compute. Qed.

Lemma latin_compose_ascii text :
  Forall (λ c, c < 0x80) text → latin_compose text = text.
Proof.
  induction 1 as [|b text Hb Htext IH]; [done|].
  destruct text as [|m text]; [done|].
  change (latin_compose (b :: m :: text))
    with (match latin_compositions !! (b, m) with
          | Some c => c :: latin_compose text
          | None => b :: latin_compose (m :: text)
          end).
  destruct (latin_compositions !! (b, m)) as [c|] eqn:Hc.
  - apply latin_compositions_marks in Hc. simpl in Hc.
    apply Forall_cons in Htext as [Hm _]. lia.
  - by rewrite IH.
Qed.

Lemma preprocess_romanian_ascii_mode_pure_ascii_witness :
  let text := u "ȚARA MEA FRUMOASĂ, în âș." in
  (∀ t, Forall (λ c, c < 0x80) t → Forall (λ c, c < 0x80) (str_lower t))
  ∧ (∀ t, Forall (λ c, c < 0x80) t → normalize_NFC t = t)
  ∧ Forall (λ c, c < 0x80 ∨ is_Some (ASCII_MAP !! c)) text
  ∧ Forall (λ c, c < 0x80) (preprocess_romanian text true (u "ascii")).
Proof.
  assert (Htext : Forall (λ c, c < 0x80 ∨ is_Some (ASCII_MAP !! c))
                    (u "ȚARA MEA FRUMOASĂ, în âș.")).
  { apply (bool_decide_unpack _). by vm_compute. }
  split; [exact latin_lower_ascii|]. split; [exact latin_compose_ascii|].
  split; [exact Htext|].
  exact (preprocess_romanian_ascii_mode_pure_ascii (u "ȚARA MEA FRUMOASĂ, în âș.") true
           latin_lower_ascii latin_compose_ascii Htext).
Defined.

(** * Further properties of the punctuation normalizer *)

Lemma replace_from_Forall (P : N → Prop) old new skip text :
  Forall P new → Forall P text → Forall P (replace_from old new skip text).
Proof.
  intros Hnew Htext. revert skip.
  induction Htext as [|c rest Hc Hrest IH]; intros skip; [constructor|].
  cbn [replace_from]. destruct skip as [|k]; [|apply IH].
  destruct (startswith _ _).
  - apply Forall_app. split; [done|apply IH].
  - constructor; [done|apply IH].
Qed.

Lemma replace_Forall (P : N → Prop) old new text :
  Forall P new → Forall P text → Forall P (replace old new text).
Proof.
  intros Hnew Htext. unfold replace. destruct old as [|o old].
  - apply Forall_app. split; [done|].
    induction Htext as [|c rest Hc _ IH]; [constructor|]. simpl.
    constructor; [done|]. apply Forall_app. by split.
  - by apply replace_from_Forall.
Qed.

Lemma replace_char_removed c new text :
  Forall (λ x, x ≠ c) new → Forall (λ x, x ≠ c) (replace [c] new text).
Proof.
  intros Hnew. unfold replace. induction text as [|c0 rest IH]; [constructor|].
  cbn [replace_from]. unfold startswith.
  destruct (decide (c0 = c)) as [->|Hc0].
  - rewrite bool_decide_eq_true_2 by (by apply prefix_cons, prefix_nil).
    apply Forall_app. by split.
  - rewrite bool_decide_eq_false_2.
    + by constructor.
    + intros Hpre. by apply prefix_cons_inv_1 in Hpre.
Qed.

Lemma foldl_replace_Forall (P : N → Prop) (pairs : list (list N * list N)) text :
  Forall (λ p, Forall P p.2) pairs →
  Forall P text →
  Forall P (foldl (λ text '(old_char_sequence, new_char),
                     replace old_char_sequence new_char text) text pairs).
Proof.
  intros Hpairs. revert text.
  induction Hpairs as [|[old new] pairs Hnew _ IH]; intros text Htext; [done|].
  cbn [foldl]. apply IH. by apply replace_Forall.
Qed.

Lemma foldl_replace_removes c (pairs : list (list N * list N)) text new :
  Forall (λ p, Forall (λ x, x ≠ c) p.2) pairs →
  ([c], new) ∈ pairs →
  Forall (λ x, x ≠ c)
    (foldl (λ text '(old_char_sequence, new_char),
              replace old_char_sequence new_char text) text pairs).
Proof.
  intros Hpairs Hin. apply list_elem_of_split in Hin as (l1 & l2 & ->).
  apply Forall_app in Hpairs as [_ Hpairs].
  apply Forall_cons in Hpairs as [Hnew Hl2].
  rewrite foldl_app. cbn [foldl].
  apply foldl_replace_Forall; [done|]. by apply replace_char_removed.
Qed.

Lemma rstrip_Forall (P : N → Prop) chars text :
  Forall P text → Forall P (rstrip chars text).
Proof.
  induction 1 as [|c rest Hc _ IH]; [constructor|]. cbn [rstrip].
  destruct (rstrip chars rest) as [|r0 r].
  - destruct (bool_decide _); by repeat constructor.
  - by constructor.
Qed.

Lemma join_Forall (P : N → Prop) sep parts :
  Forall P sep → Forall (Forall P) parts → Forall P (join sep parts).
Proof.
  intros Hsep. induction 1 as [|p parts Hp Hparts IH]; [constructor|].
  cbn [join]. destruct parts as [|q parts]; [done|].
  apply Forall_app. split; [done|]. apply Forall_app. by split.
Qed.

Lemma split_from_Forall w text :
  Forall (λ c, isspace c = false) w →
  Forall (Forall (λ c, isspace c = false)) (split_from w text).
Proof.
  revert w. induction text as [|c rest IH]; intros w Hw; cbn [split_from].
  - destruct w as [|w0 w]; [apply Forall_nil_2|].
    apply Forall_cons_2; [done|apply Forall_nil_2].
  - destruct (isspace c) eqn:Hc.
    + destruct w as [|w0 w].
      * apply IH, Forall_nil_2.
      * apply Forall_cons_2; [done|]. apply IH, Forall_nil_2.
    + apply IH. apply Forall_app. split; [done|]. by apply Forall_singleton.
Qed.

(** What the finite table gives for a character that is a pattern of its
    own: no replacement string, nor the final period, nor the fallback
    sentence holds it. *)
Lemma single_patterns_fresh old new c :
  (old, new) ∈ punc_to_replace → length old = 1%nat → c ∈ old →
  old = [c]
  ∧ Forall (λ p, Forall (λ x, x ≠ c) p.2) punc_to_replace
  ∧ Forall (λ x, x ≠ c) (u ".")
  ∧ Forall (λ x, x ≠ c) fallback_sentence.
Proof.
  intros Hin Hlen Hc.
  assert (Hall : Forall (λ p, length p.1 = 1%nat →
                   Forall (λ c, p.1 = [c]
                     ∧ Forall (λ q, Forall (λ x, x ≠ c) q.2) punc_to_replace
                     ∧ Forall (λ x, x ≠ c) (u ".")
                     ∧ Forall (λ x, x ≠ c) fallback_sentence) p.1)
                   punc_to_replace).
  { apply (bool_decide_unpack _). by vm_compute. }
  rewrite Forall_forall in Hall. specialize (Hall _ Hin Hlen).
  rewrite Forall_forall in Hall. exact (Hall c Hc).
Qed.

(** X6: no character that is by itself a pattern of [punc_to_replace] (the
    colon, the semicolon, the ellipsis character, the em and en dashes, the
    curly and low quotation marks) occurs in the normalized text. *)
Theorem punc_norm_romanian_removes_patterns text old new c :
  (old, new) ∈ punc_to_replace → length old = 1%nat → c ∈ old →
  c ∉ punc_norm_romanian text.
Proof.
  intros Hin Hlen Hc.
  destruct (single_patterns_fresh old new c Hin Hlen Hc)
    as (-> & Hnews & Hdot & Hfallback).
  assert (Hfree : Forall (λ x, x ≠ c) (punc_norm_romanian text)).
  { unfold punc_norm_romanian. destruct (decide _); [done|].
    set (t := rstrip _ _).
    assert (Ht : Forall (λ x, x ≠ c) t).
    { apply rstrip_Forall. by apply (foldl_replace_removes c _ _ new). }
    destruct (negb _); [|done]. apply Forall_app. by split. }
  rewrite Forall_forall in Hfree. intros Hcin. by apply (Hfree c Hcin).
Qed.

Lemma punc_norm_romanian_removes_patterns_witness :
  let text := u "„Da”: a — b; c…" in
  (u "„", [0x22]) ∈ punc_to_replace
  ∧ length (u "„") = 1%nat
  ∧ chr "„" ∈ u "„"
  ∧ chr "„" ∉ punc_norm_romanian text.
Proof.
  assert (Hin : (u "„", [0x22]) ∈ punc_to_replace).
  { apply list_elem_of_In. vm_compute. tauto. }
  assert (Hlen : length (u "„") = 1%nat) by reflexivity.
  assert (Hc : chr "„" ∈ u "„") by apply list_elem_of_here.
  split; [exact Hin|]. split; [exact Hlen|]. split; [exact Hc|].
  exact (punc_norm_romanian_removes_patterns (u "„Da”: a — b; c…") (u "„") [0x22]
           (chr "„") Hin Hlen Hc).
Defined.

(** X7: the only whitespace left in the normalized text is the plain space
    U+0020: tabs, newlines, no-break spaces and the other Unicode spaces are
    all replaced. *)
Theorem punc_norm_romanian_whitespace_is_space text c :
  c ∈ punc_norm_romanian text → isspace c = true → c = chr " ".
Proof.
  set (P := λ c, isspace c = true → c = chr " ").
  assert (Hall : Forall P (punc_norm_romanian text)).
  { unfold punc_norm_romanian. destruct (decide _).
    - apply (bool_decide_unpack _). by vm_compute.
    - set (t := rstrip _ _).
      assert (Ht : Forall P t).
      { apply rstrip_Forall, foldl_replace_Forall.
        - apply (bool_decide_unpack _). by vm_compute.
        - apply join_Forall; [by repeat constructor|].
          eapply Forall_impl; [apply (split_from_Forall []); constructor|].
          intros w Hw. eapply Forall_impl; [exact Hw|].
          intros d Hd Hsp. congruence. }
      destruct (negb _); [|done]. apply Forall_app. split; [done|].
      apply (bool_decide_unpack _). by vm_compute. }
  rewrite Forall_forall in Hall. exact (Hall c).
Qed.

Lemma punc_norm_romanian_whitespace_is_space_witness :
  let text := u "Bună" ++ [0x09; 0xA0] ++ u "ziua" ++ [0x0A] in
  chr " " ∈ punc_norm_romanian text
  ∧ isspace (chr " ") = true
  ∧ chr " " = chr " ".
Proof.
  assert (Hin : chr " " ∈ punc_norm_romanian (u "Bună" ++ [0x09; 0xA0] ++ u "ziua" ++ [0x0A])).
  { apply list_elem_of_In. vm_compute. tauto. }
  assert (Hsp : isspace (chr " ") = true) by reflexivity.
  split; [exact Hin|]. split; [exact Hsp|].
  exact (punc_norm_romanian_whitespace_is_space
           (u "Bună" ++ [0x09; 0xA0] ++ u "ziua" ++ [0x0A]) (chr " ") Hin Hsp).
Defined.

(** * Further properties of the coverage check *)

Lemma elem_of_sorted (s : gset N) ch : ch ∈ sorted s ↔ ch ∈ s.
Proof.
  unfold sorted. rewrite (merge_sort_Permutation N.le (elements s)).
  apply elem_of_elements.
Qed.

Lemma length_sorted (s : gset N) : length (sorted s) = size s.
Proof.
  unfold sorted. by rewrite (merge_sort_Permutation N.le (elements s)).
Qed.

Lemma elem_of_unique_chars (text : list N) (ch : N) :
  ch ∈ (list_to_set (replace (u " ") (u "") text) : gset N)
  ↔ ch ∈ text ∧ ch ≠ chr " ".
Proof.
  rewrite replace_space_filter, elem_of_list_to_set, list_elem_of_filter. tauto.
Qed.

(** X10: a character is reported covered exactly when it occurs in the text,
    is not the space, and is, as a one-character string, a key of the
    vocabulary; it is reported missing exactly when it occurs in the text, is
    not the space, and is not such a key (a longer token that contains it
    does not count). *)
Theorem check_vocab_coverage_members (text : list N) (vocab : gmap (list N) Z) (ch : N) :
  let r := check_vocab_coverage text vocab in
  (ch ∈ covered r ↔ ch ∈ text ∧ ch ≠ chr " " ∧ is_Some (vocab !! [ch]))
  ∧ (ch ∈ missing r ↔ ch ∈ text ∧ ch ≠ chr " " ∧ vocab !! [ch] = None).
Proof.
  unfold check_vocab_coverage. cbn [covered missing]. split.
  - rewrite elem_of_sorted, elem_of_filter, elem_of_unique_chars. tauto.
  - rewrite elem_of_sorted, elem_of_difference, elem_of_filter, elem_of_unique_chars.
    rewrite <- not_eq_None_Some. destruct (vocab !! [ch]) as [id|].
    + split; [intros [[Hin Hsp] Hn]|intros (_ & _ & ?); done].
      exfalso. apply Hn. done.
    + split; [tauto|]. intros (Hin & Hsp & _). split; [done|]. intros [Hn _]. done.
Qed.

(** X11: the two reported lists are in ascending order of code point and
    without repetition, and [total_unique] counts exactly the covered and the
    missing characters together. *)
Theorem check_vocab_coverage_lists (text : list N) (vocab : gmap (list N) Z) :
  let r := check_vocab_coverage text vocab in
  Sorted N.le (covered r) ∧ NoDup (covered r)
  ∧ Sorted N.le (missing r) ∧ NoDup (missing r)
  ∧ total_unique r = (length (covered r) + length (missing r))%nat.
Proof.
  unfold check_vocab_coverage. cbn [covered missing total_unique].
  set (unique_chars := list_to_set _ : gset N).
  set (cov := filter _ unique_chars).
  assert (Hnodup : ∀ s : gset N, NoDup (sorted s)).
  { intros s. unfold sorted. rewrite (merge_sort_Permutation N.le (elements s)).
    apply NoDup_elements. }
  assert (Hsorted : ∀ s : gset N, Sorted N.le (sorted s)).
  { intros s. apply (Sorted_merge_sort N.le). }
  repeat split; try done.
  rewrite !length_sorted.
  assert (Hsplit : unique_chars = cov ∪ (unique_chars ∖ cov)).
  { apply set_eq. intros ch. rewrite elem_of_union, elem_of_difference.
    subst cov. rewrite elem_of_filter.
    destruct (decide (is_Some (vocab !! [ch]))); tauto. }
  rewrite Hsplit at 1. apply size_union.
  intros ch Hcov Hdiff. apply elem_of_difference in Hdiff as [_ Hdiff]. done.
Qed.

(** * Further properties of the metadata rewriting *)





Section MetadataMore.
Context `{Unicode}.

(** X12: the assignments of the loop body never raise, do not write, keep the
    number of fields, and change no field other than fields 1 and 2, which
    (when present) are replaced by their mapping; in particular the
    identifier in field 0 and any field after the third are untouched. *)
Theorem process_row_fields lowercase mode (row : list (list N)) fout :
  ∃ row',
    process_row lowercase mode row fout = (Return row', fout)
    ∧ length row' = length row
    ∧ (∀ i, i ≠ 1%nat → i ≠ 2%nat → row' !! i = row !! i)
    ∧ (∀ f1, row !! 1%nat = Some f1 →
             row' !! 1%nat = Some (preprocess_romanian f1 lowercase mode))
    ∧ (∀ f2, row !! 2%nat = Some f2 →
             row' !! 2%nat = Some (preprocess_romanian f2 lowercase mode)).
Proof.
  exists (mapped_row lowercase mode row).
  split; [apply process_row_mapped|]. split; [apply length_mapped_row|].
  unfold mapped_row. repeat split.
  - intros i H1 H2. rewrite list_lookup_imap.
    destruct (row !! i) as [field|]; [|done]. simpl.
    destruct (decide _) as [[[? _]|[? _]]|_]; done.
  - intros f1 Hf1. rewrite list_lookup_imap, Hf1. simpl.
    apply lookup_lt_Some in Hf1.
    destruct (decide _) as [_|Hn]; [done|]. exfalso. apply Hn. left. lia.
  - intros f2 Hf2. rewrite list_lookup_imap, Hf2. simpl.
    apply lookup_lt_Some in Hf2.
    destruct (decide _) as [_|Hn]; [done|]. exfalso. apply Hn. right. lia.
Qed.



End MetadataMore.

(** *** Reading back what was written *)











Section RoundTrip.
Context `{Unicode}.


End RoundTrip.




(** * Modes and the full pipeline *)

Lemma PHONEME_MAP_in_ASCII_MAP :
  map_Forall (λ ch r, ch ∈ u "ăĂâÂîÎ" ∨ ASCII_MAP !! ch = Some r) PHONEME_MAP.
Proof. apply (bool_decide_unpack _). by vm_compute. Qed.

Lemma ASCII_MAP_in_PHONEME_MAP :
  map_Forall (λ ch r, ch ∈ u "ăĂâÂîÎ" ∨ PHONEME_MAP !! ch = Some r) ASCII_MAP.
Proof. apply (bool_decide_unpack _). by vm_compute. Qed.

Lemma maps_agree_off_vowels ch :
  ch ∉ u "ăĂâÂîÎ" → PHONEME_MAP !! ch = ASCII_MAP !! ch.
Proof.
  intros Hch. destruct (PHONEME_MAP !! ch) as [r|] eqn:Hp.
  - destruct (PHONEME_MAP_in_ASCII_MAP ch r Hp) as [?|Ha]; [done|by rewrite Ha].
  - destruct (ASCII_MAP !! ch) as [r|] eqn:Ha; [|done].
    destruct (ASCII_MAP_in_PHONEME_MAP ch r Ha) as [?|Hp']; [done|congruence].
Qed.

Lemma split_from_Forall_chars (P : N → Prop) w text :
  Forall P w → Forall P text → Forall (Forall P) (split_from w text).
Proof.
  intros Hw Htext. revert w Hw.
  induction Htext as [|c rest Hc _ IH]; intros w Hw; cbn [split_from].
  - destruct w as [|w0 w]; [apply Forall_nil_2|].
    apply Forall_cons_2; [done|apply Forall_nil_2].
  - destruct (isspace c).
    + destruct w as [|w0 w].
      * apply IH, Forall_nil_2.
      * apply Forall_cons_2; [done|]. apply IH, Forall_nil_2.
    + apply IH. apply Forall_app. split; [done|]. by apply Forall_singleton.
Qed.

(** The normalizer only ever inserts a space, a comma, a hyphen, a straight
    quote or apostrophe, or a period; so a property of characters that holds
    of these, of the fallback sentence and of the input holds of the
    output. *)
Lemma punc_norm_romanian_Forall (P : N → Prop) text :
  Forall P (u " ,-'." ++ [0x22]) →
  Forall P fallback_sentence →
  Forall P text →
  Forall P (punc_norm_romanian text).
Proof.
  intros Hins Hfallback Htext. rewrite Forall_forall in Hins.
  assert (Hnews : Forall (λ p : list N * list N, Forall P p.2) punc_to_replace).
  { assert (Hsub : Forall (λ p : list N * list N,
                             Forall (λ c, c ∈ u " ,-'." ++ [0x22]) p.2) punc_to_replace).
    { apply (bool_decide_unpack _). by vm_compute. }
    eapply Forall_impl; [exact Hsub|]. intros p Hp.
    eapply Forall_impl; [exact Hp|]. intros c. apply Hins. }
  unfold punc_norm_romanian. destruct (decide _); [done|].
  set (t := rstrip _ _).
  assert (Ht : Forall P t).
  { apply rstrip_Forall, foldl_replace_Forall; [done|].
    apply join_Forall.
    - apply Forall_singleton, Hins. apply list_elem_of_In. vm_compute. tauto.
    - apply split_from_Forall_chars; [apply Forall_nil_2|done]. }
  destruct (negb _); [|done]. apply Forall_app. split; [done|].
  apply Forall_singleton, Hins. apply list_elem_of_In. vm_compute. tauto.
Qed.

Section Modes.
Context `{Unicode}.

(** X5: the two modes differ only on the vowels ă, â, î: on a text that has
    none of them (in either case) phoneme mode and ascii mode return the
    same result. *)
Theorem preprocess_romanian_modes_agree_without_vowels text lowercase :
  Forall (λ ch, ch ∉ u "ăĂâÂîÎ") text →
  preprocess_romanian text lowercase (u "phoneme")
  = preprocess_romanian text lowercase (u "ascii").
Proof.
  intros Htext. unfold preprocess_romanian. destruct text as [|c0 text]; [done|].
  rewrite select_map_phoneme, select_map_ascii.
  replace (apply_char_map PHONEME_MAP (c0 :: text))
    with (apply_char_map ASCII_MAP (c0 :: text)); [done|].
  induction Htext as [|ch rest Hch _ IH]; [done|].
  rewrite !apply_char_map_cons, IH. f_equal.
  unfold map_char. by rewrite (maps_agree_off_vowels ch Hch).
Qed.

(** X8: the full pipeline leaves no key of the selected map in its output
    (same provisos as for the mapping alone: NFC leaves the mapped and
    lowercased text unchanged, and lowercasing creates no key). *)
Theorem preprocess_and_normalize_key_free text (lowercase : bool) mode :
  (∀ t, key_free (select_map mode) t → key_free (select_map mode) (str_lower t)) →
  (let mapped := apply_char_map (select_map mode) text in
   let lowered := if lowercase then str_lower mapped else mapped in
   normalize_NFC lowered = lowered) →
  key_free (select_map mode) (preprocess_and_normalize text lowercase mode).
Proof.
  intros Hkeys Hnfc. unfold preprocess_and_normalize, key_free.
  assert (Hconst : Forall (λ ch, select_map mode !! ch = None) (u " ,-'." ++ [0x22])
                   ∧ Forall (λ ch, select_map mode !! ch = None) fallback_sentence).
  { unfold select_map. destruct (decide _);
      split; apply (bool_decide_unpack _); by vm_compute. }
  destruct Hconst as [Hins Hfallback].
  apply punc_norm_romanian_Forall; [done|done|].
  destruct text as [|c0 text]; [constructor|].
  rewrite preprocess_romanian_nonempty by done. cbn zeta in *. rewrite Hnfc.
  destruct lowercase.
  - apply Hkeys, apply_char_map_result_key_free.
  - apply apply_char_map_result_key_free.
Qed.

(** X9: in ascii mode the full pipeline turns a text written with ASCII
    characters and the Romanian letters of the ASCII map into pure ASCII
    (assuming, of the runtime, that lowercasing keeps an ASCII text ASCII
    and that NFC leaves an ASCII text unchanged). *)
Theorem preprocess_and_normalize_ascii_mode_pure_ascii text (lowercase : bool) :
  (∀ t, Forall (λ c, c < 0x80) t → Forall (λ c, c < 0x80) (str_lower t)) →
  (∀ t, Forall (λ c, c < 0x80) t → normalize_NFC t = t) →
  Forall (λ c, c < 0x80 ∨ is_Some (ASCII_MAP !! c)) text →
  Forall (λ c, c < 0x80) (preprocess_and_normalize text lowercase (u "ascii")).
Proof.
  intros Hlower Hnfc Htext. unfold preprocess_and_normalize.
  apply punc_norm_romanian_Forall.
  - apply (bool_decide_unpack _). by vm_compute.
  - apply (bool_decide_unpack _). by vm_compute.
  - destruct text as [|c0 text]; [constructor|].
    rewrite preprocess_romanian_nonempty by done. cbn zeta.
    rewrite select_map_ascii.
    pose proof (apply_ASCII_MAP_ascii _ Htext) as Hmapped.
    destruct lowercase.
    + rewrite Hnfc; by apply Hlower.
    + by rewrite Hnfc.
Qed.

End Modes.

Lemma preprocess_romanian_modes_agree_without_vowels_witness :
  let text := u "Știu, soții țin post." ++ [0x73; 0x326] in
  Forall (λ ch, ch ∉ u "ăĂâÂîÎ") text
  ∧ preprocess_romanian text true (u "phoneme")
    = preprocess_romanian text true (u "ascii").
Proof.
  assert (Htext : Forall (λ ch, ch ∉ u "ăĂâÂîÎ") (u "Știu, soții țin post." ++ [0x73; 0x326])).
  { apply (bool_decide_unpack _). by vm_compute. }
  split; [exact Htext|].
  exact (preprocess_romanian_modes_agree_without_vowels
           (u "Știu, soții țin post." ++ [0x73; 0x326]) true Htext).
Defined.

Lemma preprocess_and_normalize_key_free_witness :
  let mode := u "phoneme" in
  let text := u "  ȘTIINȚĂ:  „Țara”…  " in
  (∀ t, key_free (select_map mode) t → key_free (select_map mode) (str_lower t))
  ∧ normalize_NFC (str_lower (apply_char_map (select_map mode) text))
    = str_lower (apply_char_map (select_map mode) text)
  ∧ key_free (select_map mode) (preprocess_and_normalize text true mode).
Proof.
  assert (Hnfc : normalize_NFC (str_lower (apply_char_map (select_map (u "phoneme"))
                                             (u "  ȘTIINȚĂ:  „Țara”…  ")))
                 = str_lower (apply_char_map (select_map (u "phoneme"))
                                (u "  ȘTIINȚĂ:  „Țara”…  ")))
    by (vm_compute; reflexivity).
  split; [exact (latin_lower_key_free (u "phoneme"))|]. split; [exact Hnfc|].
  exact (preprocess_and_normalize_key_free (u "  ȘTIINȚĂ:  „Țara”…  ") true (u "phoneme")
           (latin_lower_key_free (u "phoneme")) Hnfc).
Defined.

Lemma preprocess_and_normalize_ascii_mode_pure_ascii_witness :
  let text := u "Înțelepciunea înseamnă să știi" in
  (∀ t, Forall (λ c, c < 0x80) t → Forall (λ c, c < 0x80) (str_lower t))
  ∧ (∀ t, Forall (λ c, c < 0x80) t → normalize_NFC t = t)
  ∧ Forall (λ c, c < 0x80 ∨ is_Some (ASCII_MAP !! c)) text
  ∧ Forall (λ c, c < 0x80) (preprocess_and_normalize text true (u "ascii")).
Proof.
  assert (Htext : Forall (λ c, c < 0x80 ∨ is_Some (ASCII_MAP !! c))
                    (u "Înțelepciunea înseamnă să știi")).
  { apply (bool_decide_unpack _). by vm_compute. }
  split; [exact latin_lower_ascii|]. split; [exact latin_compose_ascii|].
  split; [exact Htext|].
  exact (preprocess_and_normalize_ascii_mode_pure_ascii
           (u "Înțelepciunea înseamnă să știi") true
           latin_lower_ascii latin_compose_ascii Htext).
Defined.
